(** * Adler-32 update with deferred reduction (adler32.c)

    A shallow embedding of [adler32_update] from [src/adler32.c] and the
    properties its specification states about it.

    Conventions of the embedding:
    - [uint32_t] values are integers in [Z]; every 32-bit addition is
      written with its wrap-around ([wrap32]).
    - [const unsigned char *buf] is the memory as seen from the pointer:
      a function from byte offsets to bytes.  [buf + k] is [ptr_add].
    - [size_t] indices are integers in [Z]; with [len] the size of a real
      buffer none of the index computations of the routine ([i + 16],
      [block * BLOCK_SIZE]) can leave the range of [size_t].
    - the in/out parameters [*s1], [*s2] are passed in as two integers and
      returned as a pair.
    - a [for] loop is [for_loop]: condition, increment and body are the
      ones of the source; the fuel bounds the number of iterations. *)

From Stdlib Require Import ZArith List Lia Bool.
From Stdlib Require Import Sorting.Permutation.
From Stdlib Require Import Strings.Byte.
From Stdlib Require Strings.String.
Import ListNotations.
Import String.StringSyntax.
Delimit Scope string_scope with string.
Open Scope Z_scope.

(** ** Machine arithmetic and memory *)

Definition wrap32 (x : Z) : Z := x mod 2 ^ 32.

Definition ptr : Type := Z -> byte.

Definition ptr_add (p : ptr) (k : Z) : ptr := fun i => p (k + i).

Definition byte_val (x : byte) : Z := Z.of_N (Byte.to_N x).

(** [p[i]], promoted to an integer. *)
Definition load_u8 (p : ptr) (i : Z) : Z := byte_val (p i).

(** The NEON vector type: sixteen byte lanes. *)
Definition uint8x16_t : Type := list byte.

Definition vld1q_u8 (p : ptr) : uint8x16_t :=
  map (fun k => p (Z.of_nat k)) (seq 0 16).

Definition vgetq_lane_u8 (v : uint8x16_t) (lane : nat) : Z :=
  byte_val (nth lane v x00).

(** [for (i = i0; cond i; i = next i) st = body i st;] returning the final
    index together with the final state. *)
Fixpoint for_loop {St : Type} (fuel : nat) (cond : Z -> bool) (next : Z -> Z)
    (body : Z -> St -> St) (i : Z) (st : St) : Z * St :=
  match fuel with
  | O => (i, st)
  | S fuel' =>
      if cond i then for_loop fuel' cond next body (next i) (body i st)
      else (i, st)
  end.

(** ** The routine *)

Definition ADLER32_PRIME : Z := 65521.

Definition BLOCK_SIZE : Z := 5552.

(** The long-buffer regime, lines 32-141.  It is written once over the
    two operations it is made of, so that the same loops can be run on the
    plain accumulators and on accumulators that also record a carry:
    [accumulate st x] is [a += x; b += a;] and [reduce st] is
    [a %= ADLER32_PRIME; b %= ADLER32_PRIME;]. *)
Section LongRegime.

Context {St : Type}.
Variable accumulate : St -> Z -> St.
Variable reduce : St -> St.

(** The sixteen unrolled lane extractions of lines 47-78 and 96-127. *)
Definition lanes16 (v_data : uint8x16_t) (st : St) : St :=
  let st := accumulate st (vgetq_lane_u8 v_data 0) in
  let st := accumulate st (vgetq_lane_u8 v_data 1) in
  let st := accumulate st (vgetq_lane_u8 v_data 2) in
  let st := accumulate st (vgetq_lane_u8 v_data 3) in
  let st := accumulate st (vgetq_lane_u8 v_data 4) in
  let st := accumulate st (vgetq_lane_u8 v_data 5) in
  let st := accumulate st (vgetq_lane_u8 v_data 6) in
  let st := accumulate st (vgetq_lane_u8 v_data 7) in
  let st := accumulate st (vgetq_lane_u8 v_data 8) in
  let st := accumulate st (vgetq_lane_u8 v_data 9) in
  let st := accumulate st (vgetq_lane_u8 v_data 10) in
  let st := accumulate st (vgetq_lane_u8 v_data 11) in
  let st := accumulate st (vgetq_lane_u8 v_data 12) in
  let st := accumulate st (vgetq_lane_u8 v_data 13) in
  let st := accumulate st (vgetq_lane_u8 v_data 14) in
  let st := accumulate st (vgetq_lane_u8 v_data 15) in
  st.

(** Lines 42-79: one block, sixteen bytes at a time. *)
Definition block_chunks (block_data : ptr) (st : St) : St :=
  snd (for_loop (Z.to_nat BLOCK_SIZE)
         (fun i => i <? BLOCK_SIZE) (fun i => i + 16)
         (fun i st => lanes16 (vld1q_u8 (ptr_add block_data i)) st)
         0 st).

(** Lines 38-84: every full block, each followed by a reduction. *)
Definition blocks_loop (buf : ptr) (blocks : Z) (st : St) : St :=
  snd (for_loop (Z.to_nat blocks)
         (fun block => block <? blocks) (fun block => block + 1)
         (fun block st =>
            let block_data := ptr_add buf (block * BLOCK_SIZE) in
            reduce (block_chunks block_data st))
         0 st).

(** Lines 90-128: the sixteen-byte groups of the remainder; the index
    [i] survives the loop. *)
Definition remaining_chunks (remaining_data : ptr) (remaining : Z)
    (st : St) : Z * St :=
  for_loop (Z.to_nat remaining)
    (fun i => i + 16 <=? remaining) (fun i => i + 16)
    (fun i st => lanes16 (vld1q_u8 (ptr_add remaining_data i)) st)
    0 st.

(** Lines 131-134: the final bytes, one at a time. *)
Definition final_bytes (remaining_data : ptr) (remaining : Z) (i : Z)
    (st : St) : St :=
  snd (for_loop (Z.to_nat remaining)
         (fun i => i <? remaining) (fun i => i + 1)
         (fun i st => accumulate st (load_u8 remaining_data i))
         i st).

Definition long_regime (buf : ptr) (len : Z) (st : St) : St :=
  let blocks := len / BLOCK_SIZE in
  let remaining := len mod BLOCK_SIZE in
  let st := blocks_loop buf blocks st in
  let remaining_data := ptr_add buf (blocks * BLOCK_SIZE) in
  let '(i, st) := remaining_chunks remaining_data remaining st in
  let st := final_bytes remaining_data remaining i st in
  reduce st.

End LongRegime.

(** [a += x; b += a;] on two [uint32_t] accumulators. *)
Definition accumulate (st : Z * Z) (x : Z) : Z * Z :=
  let a := wrap32 (fst st + x) in
  let b := wrap32 (snd st + a) in
  (a, b).

(** [a %= ADLER32_PRIME; b %= ADLER32_PRIME;] *)
Definition reduce (st : Z * Z) : Z * Z :=
  (fst st mod ADLER32_PRIME, snd st mod ADLER32_PRIME).

(** Lines 23-26: the loop of the short-buffer regime. *)
Definition short_regime (buf : ptr) (len : Z) (st : Z * Z) : Z * Z :=
  snd (for_loop (Z.to_nat len)
         (fun n => n <? len) (fun n => n + 1)
         (fun n st =>
            let a := wrap32 (fst st + load_u8 buf n) mod ADLER32_PRIME in
            let b := wrap32 (snd st + a) mod ADLER32_PRIME in
            (a, b))
         0 st).

Definition adler32_update (s1 s2 : Z) (buf : ptr) (len : Z) : Z * Z :=
  let a := s1 in
  let b := s2 in
  if len =? 0 then (1, 0)
  else if len <? 16 then short_regime buf len (a, b)
  else long_regime accumulate reduce buf len (a, b).

(** ** The same long regime on accumulators with a sticky carry

    [add32_carry] is the 32-bit addition together with its carry out; the
    third component of the state records whether any addition executed so
    far has wrapped. *)

Definition add32_carry (x y : Z) : Z * bool :=
  (wrap32 (x + y), 2 ^ 32 <=? x + y).

Definition accumulate_carry (st : Z * Z * bool) (x : Z) : Z * Z * bool :=
  let r1 := add32_carry (fst (fst st)) x in
  let r2 := add32_carry (snd (fst st)) (fst r1) in
  (fst r1, fst r2, snd st || snd r1 || snd r2).

Definition reduce_carry (st : Z * Z * bool) : Z * Z * bool :=
  (reduce (fst st), snd st).

Definition long_regime_carry (s1 s2 : Z) (buf : ptr) (len : Z)
  : Z * Z * bool :=
  long_regime accumulate_carry reduce_carry buf len (s1, s2, false).

(** The loop of the short-buffer regime, lines 23-26, with the carry of
    its two additions recorded. *)
Definition short_regime_carry (buf : ptr) (len : Z) (st : Z * Z * bool)
  : Z * Z * bool :=
  snd (for_loop (Z.to_nat len)
         (fun n => n <? len) (fun n => n + 1)
         (fun n st =>
            let r1 := add32_carry (fst (fst st)) (load_u8 buf n) in
            let a := fst r1 mod ADLER32_PRIME in
            let r2 := add32_carry (snd (fst st)) a in
            let b := fst r2 mod ADLER32_PRIME in
            (a, b, snd st || snd r1 || snd r2))
         0 st).

(** The whole routine with the carry of every addition recorded. *)
Definition adler32_update_carry (s1 s2 : Z) (buf : ptr) (len : Z)
  : Z * Z * bool :=
  if len =? 0 then (1, 0, false)
  else if len <? 16 then short_regime_carry buf len (s1, s2, false)
  else long_regime_carry s1 s2 buf len.

(** ** Buffers as byte sequences *)

(** [n] bytes of memory starting at offset [off] of [p]. *)
Definition read (p : ptr) (off : Z) (n : nat) : list byte :=
  map (fun k => p (off + Z.of_nat k)) (seq 0 n).

(** The [len] bytes of the buffer [buf]. *)
Definition buffer (buf : ptr) (len : Z) : list byte :=
  read buf 0 (Z.to_nat len).

(** A pointer to a byte sequence laid out in memory. *)
Definition ptr_of (data : list byte) : ptr :=
  fun i => nth (Z.to_nat i) data x00.

(** The call [update(s1, s2, data)] on a byte sequence. *)
Definition update (st : Z * Z) (data : list byte) : Z * Z :=
  adler32_update (fst st) (snd st) (ptr_of data) (Z.of_nat (length data)).

(** Threading the state through one call per chunk. *)
Definition chain (st : Z * Z) (chunks : list (list byte)) : Z * Z :=
  fold_left update chunks st.

Definition valid_state (st : Z * Z) : Prop :=
  0 <= fst st < 65521 /\ 0 <= snd st < 65521.

(** ** The scalar recurrence of the specification

    These two definitions follow the words of the specification, over the
    integers: [s1 = (s1 + x) mod 65521; s2 = (s2 + s1) mod 65521] for each
    byte in order, and the identity state for the empty buffer. *)

Definition scalar_step (st : Z * Z) (x : byte) : Z * Z :=
  let s1 := (fst st + byte_val x) mod 65521 in
  let s2 := (snd st + s1) mod 65521 in
  (s1, s2).

Definition scalar_recurrence (st : Z * Z) (data : list byte) : Z * Z :=
  fold_left scalar_step data st.

Definition reference_update (st : Z * Z) (data : list byte) : Z * Z :=
  match data with
  | [] => (1, 0)
  | _ :: _ => scalar_recurrence st data
  end.

(** ** Auxiliary definitions of the proofs *)

(** [t] iterations of a loop body from index [i] with stride [s]. *)
Fixpoint steps {St : Type} (s : Z) (body : Z -> St -> St) (t : nat) (i : Z)
    (st : St) : St :=
  match t with
  | O => st
  | S t' => steps s body t' (i + s) (body i st)
  end.

(** The accumulation of a sequence of bytes, in order, without reduction. *)
Definition accumulate_bytes {St : Type} (acc : St -> Z -> St)
    (data : list byte) (st : St) : St :=
  fold_left (fun st x => acc st (byte_val x)) data st.

(** [t] consecutive blocks of [p] from offset [off], each accumulated and
    then reduced. *)
Fixpoint reduce_blocks {St : Type} (acc : St -> Z -> St) (red : St -> St)
    (t : nat) (p : ptr) (off : Z) (st : St) : St :=
  match t with
  | O => st
  | S t' =>
      reduce_blocks acc red t' p (off + BLOCK_SIZE)
        (red (accumulate_bytes acc (read p off (Z.to_nat BLOCK_SIZE)) st))
  end.

(** What the accumulators can have reached [k] bytes after a reduction. *)
Definition within (k : Z) (st : Z * Z) : Prop :=
  0 <= fst st <= 65520 + 255 * k /\
  0 <= 2 * snd st <= 131040 * (k + 1) + 255 * k * (k + 1).

(** The body of the loop of lines 23-26, as a function of the byte read. *)
Definition short_step (st : Z * Z) (x : byte) : Z * Z :=
  let a := wrap32 (fst st + byte_val x) mod ADLER32_PRIME in
  let b := wrap32 (snd st + a) mod ADLER32_PRIME in
  (a, b).

(** The two additions of the iteration on byte [x] do not wrap. *)
Definition first_step_exact (st : Z * Z) (x : byte) : Prop :=
  0 <= fst st /\ 0 <= snd st /\
  fst st + byte_val x < 2 ^ 32 /\
  snd st + (fst st + byte_val x) mod 65521 < 2 ^ 32.

(** The sum of the bytes of a buffer. *)
Fixpoint byte_sum (data : list byte) : Z :=
  match data with
  | [] => 0
  | x :: rest => byte_val x + byte_sum rest
  end.

(** The bytes of a buffer weighted by their distance to its end: of [n]
    bytes the first counts [n] times and the last once. *)
Fixpoint weighted_sum (data : list byte) : Z :=
  match data with
  | [] => 0
  | x :: rest => Z.of_nat (S (length rest)) * byte_val x + weighted_sum rest
  end.

(** What the accumulators can have reached [k] bytes after a start from two
    16-bit values. *)
Definition within16 (k : Z) (st : Z * Z) : Prop :=
  0 <= fst st <= 65535 + 255 * k /\
  0 <= 2 * snd st <= 131070 * (k + 1) + 255 * k * (k + 1).

(** The body of the short loop with its carry, as a function of the byte
    read. *)
Definition short_step_carry (st : Z * Z * bool) (x : byte) : Z * Z * bool :=
  let r1 := add32_carry (fst (fst st)) (byte_val x) in
  let a := fst r1 mod ADLER32_PRIME in
  let r2 := add32_carry (snd (fst st)) a in
  let b := fst r2 mod ADLER32_PRIME in
  (a, b, snd st || snd r1 || snd r2).

(** * Proofs *)

(** ** Loops *)

(** A loop [for (; i + w <= n; i += s)] runs exactly the [t] iterations
    that fit, provided the fuel covers them. *)
Lemma for_loop_steps {St : Type} (cond : Z -> bool) (s w n : Z)
    (body : Z -> St -> St) :
  0 < s ->
  (forall i, cond i = (i + w <=? n)) ->
  forall (t fuel : nat) (i : Z) (st : St),
    (t <= fuel)%nat ->
    n < i + Z.of_nat t * s + w <= n + s ->
    for_loop fuel cond (fun i => i + s) body i st
    = (i + Z.of_nat t * s, steps s body t i st).
Proof.
  intros Hs Hcond t.
  induction t as [|t IH]; intros fuel i st Hfuel Hrange.
  - simpl in Hrange. replace (i + Z.of_nat 0 * s) with i by (simpl; lia).
    destruct fuel as [|fuel]; simpl; [reflexivity|].
    rewrite Hcond.
    destruct (Z.leb_spec (i + w) n); [lia | reflexivity].
  - destruct fuel as [|fuel]; [lia|].
    cbn [for_loop]. rewrite Hcond.
    destruct (Z.leb_spec (i + w) n) as [_|Hlt]; [|nia].
    rewrite IH by lia.
    cbn [steps]. f_equal. rewrite Nat2Z.inj_succ. ring.
Qed.

Lemma read_length p off n : length (read p off n) = n.
Proof. unfold read. now rewrite length_map, length_seq. Qed.

Lemma read_succ p off n :
  read p off (S n) = p off :: read p (off + 1) n.
Proof.
  unfold read. simpl. f_equal.
  - f_equal. lia.
  - rewrite <- seq_shift, map_map.
    apply map_ext. intros k. f_equal. lia.
Qed.

Lemma read_app p off m n :
  read p off (m + n) = read p off m ++ read p (off + Z.of_nat m) n.
Proof.
  revert off. induction m as [|m IH]; intros off.
  - simpl. f_equal. lia.
  - change (S m + n)%nat with (S (m + n)).
    rewrite !read_succ, IH. simpl. do 3 f_equal. lia.
Qed.

Lemma read_ptr_add p k off n : read (ptr_add p k) off n = read p (k + off) n.
Proof.
  unfold read, ptr_add. apply map_ext. intros j. f_equal. lia.
Qed.

Lemma read_ptr_of_app pre data :
  read (ptr_of (pre ++ data)) (Z.of_nat (length pre)) (length data) = data.
Proof.
  revert pre. induction data as [|x data IH]; intros pre; [reflexivity|].
  cbn [length]. rewrite read_succ. f_equal.
  - unfold ptr_of. rewrite Nat2Z.id. apply nth_middle.
  - specialize (IH (pre ++ [x])).
    rewrite <- app_assoc, length_app, Nat2Z.inj_add in IH. exact IH.
Qed.

Lemma read_ptr_of data : read (ptr_of data) 0 (length data) = data.
Proof. exact (read_ptr_of_app [] data). Qed.

Lemma buffer_ptr_of data :
  buffer (ptr_of data) (Z.of_nat (length data)) = data.
Proof. unfold buffer. rewrite Nat2Z.id. apply read_ptr_of. Qed.

Lemma ltb_as_leb (i n : Z) : (i <? n) = (i + 1 <=? n).
Proof.
  destruct (Z.ltb_spec i n), (Z.leb_spec (i + 1) n); lia || reflexivity.
Qed.

Lemma BLOCK_SIZE_chunks : Z.to_nat BLOCK_SIZE = (16 * 347)%nat.
Proof. unfold BLOCK_SIZE. lia. Qed.

(** ** The shape of the long regime

    Whatever the two operations are, the loops of the long regime visit
    every byte of the buffer once and in order: each full block is
    accumulated and reduced, then the remainder is accumulated and
    reduced. *)
Section LongRegimeShape.

Context {St : Type}.
Variable acc : St -> Z -> St.
Variable red : St -> St.

Lemma reduce_blocks_succ t p off st :
  reduce_blocks acc red (S t) p off st
  = reduce_blocks acc red t p (off + BLOCK_SIZE)
      (red (accumulate_bytes acc (read p off (Z.to_nat BLOCK_SIZE)) st)).
Proof. reflexivity. Qed.

Lemma accumulate_bytes_app l1 l2 st :
  accumulate_bytes acc (l1 ++ l2) st
  = accumulate_bytes acc l2 (accumulate_bytes acc l1 st).
Proof. apply fold_left_app. Qed.

Lemma lanes16_bytes p st :
  lanes16 acc (vld1q_u8 p) st = accumulate_bytes acc (read p 0 16) st.
Proof. reflexivity. Qed.

Lemma steps_chunks p t : forall i st,
  steps 16 (fun i st => lanes16 acc (vld1q_u8 (ptr_add p i)) st) t i st
  = accumulate_bytes acc (read p i (16 * t)) st.
Proof.
  induction t as [|t IH]; intros i st; [reflexivity|].
  cbn [steps]. rewrite IH, lanes16_bytes, read_ptr_add.
  replace (16 * S t)%nat with (16 + 16 * t)%nat by lia.
  rewrite read_app, accumulate_bytes_app.
  now rewrite Z.add_0_r.
Qed.

Lemma steps_bytes p t : forall i st,
  steps 1 (fun i st => acc st (load_u8 p i)) t i st
  = accumulate_bytes acc (read p i t) st.
Proof.
  induction t as [|t IH]; intros i st; [reflexivity|].
  cbn [steps]. rewrite IH, read_succ. reflexivity.
Qed.

Lemma block_chunks_bytes p st :
  block_chunks acc p st
  = accumulate_bytes acc (read p 0 (Z.to_nat BLOCK_SIZE)) st.
Proof.
  unfold block_chunks.
  rewrite (for_loop_steps _ 16 1 BLOCK_SIZE _ ltac:(lia)
             (fun i => ltb_as_leb i BLOCK_SIZE) 347).
  - cbn [snd]. rewrite steps_chunks. now rewrite BLOCK_SIZE_chunks.
  - rewrite BLOCK_SIZE_chunks. lia.
  - unfold BLOCK_SIZE. lia.
Qed.

Lemma steps_blocks buf t : forall block st,
  steps 1
    (fun block st =>
       red (block_chunks acc (ptr_add buf (block * BLOCK_SIZE)) st))
    t block st
  = reduce_blocks acc red t buf (block * BLOCK_SIZE) st.
Proof.
  induction t as [|t IH]; intros block st; [reflexivity|].
  cbn [steps]. rewrite reduce_blocks_succ.
  rewrite IH, block_chunks_bytes, read_ptr_add.
  rewrite Z.add_0_r. f_equal. ring.
Qed.

Lemma blocks_loop_blocks buf blocks st :
  0 <= blocks ->
  blocks_loop acc red buf blocks st
  = reduce_blocks acc red (Z.to_nat blocks) buf 0 st.
Proof.
  intros Hblocks. unfold blocks_loop.
  rewrite (for_loop_steps _ 1 1 blocks _ ltac:(lia)
             (fun i => ltb_as_leb i blocks) (Z.to_nat blocks))
    by lia.
  cbn [snd]. apply steps_blocks.
Qed.

Lemma remaining_chunks_bytes p remaining st :
  0 <= remaining ->
  remaining_chunks acc p remaining st
  = (16 * (remaining / 16),
     accumulate_bytes acc (read p 0 (16 * Z.to_nat (remaining / 16))) st).
Proof.
  intros Hrem. unfold remaining_chunks.
  pose proof (Z.div_mod remaining 16 ltac:(lia)) as Hdiv.
  pose proof (Z.mod_pos_bound remaining 16 ltac:(lia)) as Hmod.
  rewrite (for_loop_steps _ 16 16 remaining _ ltac:(lia)
             (fun i => eq_refl) (Z.to_nat (remaining / 16)))
    by lia.
  rewrite steps_chunks. f_equal. lia.
Qed.

Lemma final_bytes_bytes p remaining i st :
  0 <= i <= remaining ->
  final_bytes acc p remaining i st
  = accumulate_bytes acc (read p i (Z.to_nat (remaining - i))) st.
Proof.
  intros Hi. unfold final_bytes.
  rewrite (for_loop_steps _ 1 1 remaining _ ltac:(lia)
             (fun i => ltb_as_leb i remaining) (Z.to_nat (remaining - i)))
    by lia.
  cbn [snd]. apply steps_bytes.
Qed.

Theorem long_regime_shape buf len st :
  0 <= len ->
  long_regime acc red buf len st
  = red (accumulate_bytes acc
           (read buf (len / BLOCK_SIZE * BLOCK_SIZE)
              (Z.to_nat (len mod BLOCK_SIZE)))
           (reduce_blocks acc red (Z.to_nat (len / BLOCK_SIZE)) buf 0 st)).
Proof.
  intros Hlen. unfold long_regime.
  pose proof (Z.mod_pos_bound len BLOCK_SIZE ltac:(unfold BLOCK_SIZE; lia))
    as Hrem.
  assert (0 <= len / BLOCK_SIZE) as Hblocks
    by (apply Z.div_pos; unfold BLOCK_SIZE; lia).
  set (remaining := len mod BLOCK_SIZE) in *.
  set (blocks := len / BLOCK_SIZE) in *.
  pose proof (Z.div_mod remaining 16 ltac:(lia)) as Hdiv.
  pose proof (Z.mod_pos_bound remaining 16 ltac:(lia)) as Hmod.
  rewrite blocks_loop_blocks by assumption.
  rewrite remaining_chunks_bytes by lia.
  rewrite final_bytes_bytes by lia.
  rewrite !read_ptr_add, <- accumulate_bytes_app. f_equal. f_equal.
  replace (Z.to_nat remaining)
    with (16 * Z.to_nat (remaining / 16)
          + Z.to_nat (remaining - 16 * (remaining / 16)))%nat by lia.
  rewrite read_app. do 2 f_equal; lia.
Qed.

End LongRegimeShape.

(** ** Arithmetic of the accumulators *)

Lemma byte_val_range x : 0 <= byte_val x <= 255.
Proof.
  unfold byte_val. pose proof (Byte.to_N_bounded x). lia.
Qed.

Lemma valid_within st : valid_state st -> within 0 st.
Proof. unfold valid_state, within. lia. Qed.

Lemma within_no_wrap k st :
  0 <= k <= BLOCK_SIZE -> within k st ->
  0 <= fst st < 2 ^ 32 /\ 0 <= snd st < 2 ^ 32.
Proof.
  unfold BLOCK_SIZE, within. intros Hk [Ha Hb].
  assert (k * (k + 1) <= 5552 * 5553) by nia.
  change (2 ^ 32) with 4294967296. lia.
Qed.

Lemma within_step k st x :
  0 <= k -> within k st ->
  within (k + 1) (fst st + byte_val x, snd st + (fst st + byte_val x)).
Proof.
  unfold within. cbn [fst snd]. intros Hk [Ha Hb].
  pose proof (byte_val_range x). nia.
Qed.

Lemma accumulate_exact k st x :
  0 <= k < BLOCK_SIZE -> within k st ->
  accumulate st (byte_val x)
  = (fst st + byte_val x, snd st + (fst st + byte_val x)).
Proof.
  intros Hk Hst.
  destruct (within_no_wrap (k + 1) _ ltac:(lia) (within_step k st x ltac:(lia) Hst))
    as [Ha Hb].
  cbn [fst snd] in Ha, Hb.
  unfold accumulate, wrap32.
  rewrite (Z.mod_small (fst st + byte_val x)) by lia.
  now rewrite Z.mod_small by lia.
Qed.

Lemma reduce_valid st : valid_state (reduce st).
Proof.
  unfold valid_state, reduce, ADLER32_PRIME. cbn [fst snd].
  split; apply Z.mod_pos_bound; lia.
Qed.

Lemma reduce_id st : valid_state st -> reduce st = st.
Proof.
  destruct st as [a b]. unfold valid_state, reduce, ADLER32_PRIME.
  cbn [fst snd]. intros [Ha Hb]. now rewrite !Z.mod_small by lia.
Qed.

Lemma scalar_step_valid st x : valid_state (scalar_step st x).
Proof.
  unfold valid_state, scalar_step. cbn [fst snd].
  split; apply Z.mod_pos_bound; lia.
Qed.

Lemma scalar_recurrence_valid data : forall st,
  valid_state st -> valid_state (scalar_recurrence st data).
Proof.
  unfold scalar_recurrence.
  induction data as [|x data IH]; intros st Hst; [exact Hst|].
  apply IH, scalar_step_valid.
Qed.

Lemma scalar_recurrence_app st l1 l2 :
  scalar_recurrence st (l1 ++ l2)
  = scalar_recurrence (scalar_recurrence st l1) l2.
Proof. apply fold_left_app. Qed.

(** One exact accumulation followed by a reduction is one step of the
    recurrence on the reduced state. *)
Lemma reduce_exact_step st x :
  reduce (fst st + byte_val x, snd st + (fst st + byte_val x))
  = scalar_step (reduce st) x.
Proof.
  unfold reduce, scalar_step, ADLER32_PRIME. cbn [fst snd].
  rewrite Z.add_mod_idemp_l by lia.
  f_equal.
  rewrite Z.add_mod_idemp_l, Z.add_mod_idemp_r by lia.
  reflexivity.
Qed.

(** Deferred reduction: up to [BLOCK_SIZE] bytes accumulated without
    reduction and reduced once give the recurrence with a reduction after
    every byte. *)
Lemma deferred_reduction data : forall k st,
  0 <= k -> k + Z.of_nat (length data) <= BLOCK_SIZE -> within k st ->
  reduce (accumulate_bytes accumulate data st)
  = scalar_recurrence (reduce st) data.
Proof.
  induction data as [|x data IH]; intros k st Hk Hlen Hst; [reflexivity|].
  cbn [length] in Hlen.
  unfold accumulate_bytes, scalar_recurrence. cbn [fold_left].
  rewrite (accumulate_exact k) by (assumption || lia).
  rewrite <- reduce_exact_step.
  apply (IH (k + 1)); [lia | lia |].
  now apply within_step.
Qed.

Lemma deferred_reduction_valid data st :
  valid_state st -> Z.of_nat (length data) <= BLOCK_SIZE ->
  reduce (accumulate_bytes accumulate data st) = scalar_recurrence st data.
Proof.
  intros Hst Hlen.
  rewrite (deferred_reduction data 0 st) by (lia || now apply valid_within).
  now rewrite reduce_id.
Qed.

Lemma reduce_blocks_scalar t : forall p off st,
  valid_state st ->
  reduce_blocks accumulate reduce t p off st
  = scalar_recurrence st (read p off (t * Z.to_nat BLOCK_SIZE)).
Proof.
  induction t as [|t IH]; intros p off st Hst; [reflexivity|].
  rewrite ?reduce_blocks_succ.
  rewrite deferred_reduction_valid
    by (assumption || rewrite read_length; unfold BLOCK_SIZE; lia).
  rewrite IH by now apply scalar_recurrence_valid.
  change (S t * Z.to_nat BLOCK_SIZE)%nat
    with (Z.to_nat BLOCK_SIZE + t * Z.to_nat BLOCK_SIZE)%nat.
  rewrite read_app, scalar_recurrence_app.
  rewrite Z2Nat.id by (unfold BLOCK_SIZE; lia). reflexivity.
Qed.

(** The long regime computes the scalar recurrence over the whole buffer. *)
Lemma long_regime_scalar st buf len :
  valid_state st -> 0 <= len ->
  long_regime accumulate reduce buf len st
  = scalar_recurrence st (buffer buf len).
Proof.
  intros Hst Hlen.
  pose proof (Z.mod_pos_bound len BLOCK_SIZE ltac:(unfold BLOCK_SIZE; lia))
    as Hrem.
  pose proof (Z.div_mod len BLOCK_SIZE ltac:(unfold BLOCK_SIZE; lia)) as Hdiv.
  assert (0 <= len / BLOCK_SIZE) as Hblocks
    by (apply Z.div_pos; unfold BLOCK_SIZE; lia).
  rewrite long_regime_shape by assumption.
  rewrite reduce_blocks_scalar by assumption.
  rewrite deferred_reduction_valid
    by (try apply scalar_recurrence_valid; try assumption;
        rewrite read_length; lia).
  rewrite <- scalar_recurrence_app. f_equal.
  unfold buffer.
  replace (Z.to_nat len)
    with (Z.to_nat (len / BLOCK_SIZE) * Z.to_nat BLOCK_SIZE
          + Z.to_nat (len mod BLOCK_SIZE))%nat by nia.
  rewrite read_app. do 2 f_equal. nia.
Qed.

(** ** The short regime *)

Lemma steps_short buf t : forall n st,
  steps 1
    (fun n st =>
       let a := wrap32 (fst st + load_u8 buf n) mod ADLER32_PRIME in
       let b := wrap32 (snd st + a) mod ADLER32_PRIME in
       (a, b))
    t n st
  = fold_left short_step (read buf n t) st.
Proof.
  induction t as [|t IH]; intros n st; [reflexivity|].
  cbn [steps]. rewrite IH, read_succ. reflexivity.
Qed.

Lemma short_regime_fold buf len st :
  0 <= len ->
  short_regime buf len st = fold_left short_step (buffer buf len) st.
Proof.
  intros Hlen. unfold short_regime, buffer.
  rewrite (for_loop_steps _ 1 1 len _ ltac:(lia)
             (fun i => ltb_as_leb i len) (Z.to_nat len))
    by lia.
  cbn [snd]. apply steps_short.
Qed.

Lemma valid_first_step_exact st x : valid_state st -> first_step_exact st x.
Proof.
  unfold valid_state, first_step_exact.
  change (2 ^ 32) with 4294967296. intros [Ha Hb].
  pose proof (byte_val_range x).
  pose proof (Z.mod_pos_bound (fst st + byte_val x) 65521 ltac:(lia)).
  lia.
Qed.

Lemma short_step_valid st x : valid_state (short_step st x).
Proof.
  unfold valid_state, short_step, ADLER32_PRIME. cbn [fst snd].
  split; apply Z.mod_pos_bound; lia.
Qed.

Lemma short_step_scalar st x :
  first_step_exact st x -> short_step st x = scalar_step st x.
Proof.
  unfold first_step_exact, short_step, scalar_step, wrap32, ADLER32_PRIME.
  change (2 ^ 32) with 4294967296. intros (Ha & Hb & Hax & Hbx).
  pose proof (byte_val_range x) as Hx.
  rewrite (Z.mod_small (fst st + byte_val x) 4294967296) by lia.
  pose proof (Z.mod_pos_bound (fst st + byte_val x) 65521 ltac:(lia)).
  now rewrite (Z.mod_small (snd st + _) 4294967296) by lia.
Qed.

Lemma short_fold_scalar_valid data : forall st,
  valid_state st ->
  fold_left short_step data st = scalar_recurrence st data.
Proof.
  unfold scalar_recurrence.
  induction data as [|x data IH]; intros st Hst; [reflexivity|].
  cbn [fold_left].
  rewrite short_step_scalar by now apply valid_first_step_exact.
  apply IH, scalar_step_valid.
Qed.

(** Only the first iteration can wrap: every later one starts from a
    reduced state. *)
Lemma short_fold_scalar x data st :
  first_step_exact st x ->
  fold_left short_step (x :: data) st = scalar_recurrence st (x :: data).
Proof.
  intros Hst. unfold scalar_recurrence. cbn [fold_left].
  rewrite short_step_scalar by assumption.
  apply short_fold_scalar_valid, scalar_step_valid.
Qed.

Lemma short_fold_valid data : forall st,
  valid_state st -> valid_state (fold_left short_step data st).
Proof.
  induction data as [|x data IH]; intros st Hst; [exact Hst|].
  apply IH, short_step_valid.
Qed.

Lemma short_fold_nonempty_valid data st :
  data <> [] -> valid_state (fold_left short_step data st).
Proof.
  destruct data as [|x data]; [congruence|]. intros _.
  cbn [fold_left]. apply short_fold_valid, short_step_valid.
Qed.

Lemma buffer_length buf len : length (buffer buf len) = Z.to_nat len.
Proof. apply read_length. Qed.

Lemma buffer_nonempty buf len : 0 < len -> buffer buf len <> [].
Proof.
  intros Hlen Hnil. apply (f_equal (@length byte)) in Hnil.
  rewrite buffer_length in Hnil. cbn [length] in Hnil. lia.
Qed.

Lemma reference_update_nonempty st data :
  data <> [] -> reference_update st data = scalar_recurrence st data.
Proof. destruct data; [congruence | reflexivity]. Qed.

(** ** The routine against the recurrence *)

Lemma buffer_head buf len :
  0 < len -> buffer buf len = buf 0 :: read buf 1 (Z.to_nat (len - 1)).
Proof.
  intros Hlen. unfold buffer.
  replace (Z.to_nat len) with (S (Z.to_nat (len - 1))) by lia.
  apply read_succ.
Qed.

(** On a non-empty buffer the routine computes the recurrence: in the short
    regime from any state whose first iteration does not wrap, in either
    regime from a reduced state. *)
Lemma adler32_update_recurrence s1 s2 buf len :
  0 < len ->
  (len < 16 /\ first_step_exact (s1, s2) (buf 0) \/ valid_state (s1, s2)) ->
  adler32_update s1 s2 buf len = scalar_recurrence (s1, s2) (buffer buf len).
Proof.
  intros Hlen Hst. unfold adler32_update.
  destruct (Z.eqb_spec len 0) as [|_]; [lia|].
  destruct (Z.ltb_spec len 16) as [Hshort|Hlong].
  - rewrite short_regime_fold by lia.
    rewrite buffer_head by assumption.
    apply short_fold_scalar.
    destruct Hst as [[_ Hst]|Hst]; [exact Hst|].
    now apply valid_first_step_exact.
  - destruct Hst as [[Hshort _]|Hst]; [lia|].
    apply long_regime_scalar; [assumption | lia].
Qed.

(** Whatever the incoming accumulators, the routine returns a reduced
    state. *)
Lemma adler32_update_reduced s1 s2 buf len :
  0 <= len -> valid_state (adler32_update s1 s2 buf len).
Proof.
  intros Hlen. unfold adler32_update.
  destruct (Z.eqb_spec len 0) as [|Hne].
  - unfold valid_state. cbn [fst snd]. lia.
  - destruct (Z.ltb_spec len 16) as [Hshort|Hlong].
    + rewrite short_regime_fold by lia.
      apply short_fold_nonempty_valid, buffer_nonempty. lia.
    + rewrite long_regime_shape by lia. apply reduce_valid.
Qed.

Lemma update_reference st data :
  valid_state st -> update st data = reference_update st data.
Proof.
  intros Hst. unfold update.
  destruct data as [|x data]; [reflexivity|].
  rewrite adler32_update_recurrence.
  - rewrite buffer_ptr_of. reflexivity.
  - cbn [length]. lia.
  - right. now destruct st.
Qed.

Lemma update_valid st data : valid_state (update st data).
Proof. apply adler32_update_reduced. lia. Qed.

Lemma identity_valid : valid_state (1, 0).
Proof. unfold valid_state. cbn [fst snd]. lia. Qed.

Lemma chain_app st l1 l2 : chain st (l1 ++ l2) = chain (chain st l1) l2.
Proof. apply fold_left_app. Qed.

(** Chained calls on non-empty chunks run the recurrence over the
    concatenation. *)
Lemma chain_recurrence chunks : forall st,
  valid_state st ->
  Forall (fun chunk => chunk <> []) chunks ->
  chain st chunks = scalar_recurrence st (concat chunks).
Proof.
  induction chunks as [|chunk chunks IH]; intros st Hst Hne; [reflexivity|].
  inversion Hne as [|? ? Hchunk Hrest]; subst.
  cbn [chain fold_left concat].
  rewrite scalar_recurrence_app.
  rewrite update_reference, reference_update_nonempty by assumption.
  apply IH; [|assumption].
  now apply scalar_recurrence_valid.
Qed.

Lemma update_identity data :
  update (1, 0) data = scalar_recurrence (1, 0) data.
Proof.
  rewrite update_reference by apply identity_valid.
  now destruct data.
Qed.

(** ** The carry of the deferred accumulation *)

(** Dropping the carry gives back the plain accumulators. *)
Lemma accumulate_carry_erase st x :
  fst (accumulate_carry st x) = accumulate (fst st) x.
Proof. reflexivity. Qed.

(** The carry is sticky: it records every wrap up to the current point. *)
Lemma accumulate_carry_sticky st x :
  snd st = true -> snd (accumulate_carry st x) = true.
Proof.
  intros Hc. unfold accumulate_carry. cbn [snd]. now rewrite Hc.
Qed.

(** The carry stays clear exactly when neither addition of
    [a += x; b += a;] exceeds [2^32 - 1]. *)
Lemma accumulate_carry_clear a b x :
  snd (accumulate_carry (a, b, false) x) = false
  <-> a + x < 2 ^ 32 /\ b + wrap32 (a + x) < 2 ^ 32.
Proof.
  unfold accumulate_carry, add32_carry. cbn [fst snd orb].
  rewrite orb_false_iff, !Z.leb_gt. reflexivity.
Qed.

Lemma accumulate_carry_within k st c x :
  0 <= k < BLOCK_SIZE -> within k st ->
  accumulate_carry (st, c) (byte_val x) = (accumulate st (byte_val x), c).
Proof.
  intros Hk Hst.
  destruct (within_no_wrap (k + 1) _ ltac:(lia)
              (within_step k st x ltac:(lia) Hst)) as [Ha Hb].
  cbn [fst snd] in Ha, Hb.
  unfold accumulate_carry, add32_carry, accumulate, wrap32. cbn [fst snd].
  rewrite (Z.mod_small (fst st + byte_val x)) by lia.
  destruct (Z.leb_spec (2 ^ 32) (fst st + byte_val x)); [lia|].
  destruct (Z.leb_spec (2 ^ 32) (snd st + (fst st + byte_val x))); [lia|].
  now rewrite !orb_false_r.
Qed.

Lemma accumulate_bytes_carry data : forall k st c,
  0 <= k -> k + Z.of_nat (length data) <= BLOCK_SIZE -> within k st ->
  accumulate_bytes accumulate_carry data (st, c)
  = (accumulate_bytes accumulate data st, c).
Proof.
  induction data as [|x data IH]; intros k st c Hk Hlen Hst; [reflexivity|].
  cbn [length] in Hlen.
  unfold accumulate_bytes. cbn [fold_left].
  rewrite (accumulate_carry_within k) by (assumption || lia).
  apply (IH (k + 1)); [lia | lia |].
  rewrite (accumulate_exact k) by (assumption || lia).
  now apply within_step.
Qed.

Lemma reduce_carry_pair st c : reduce_carry (st, c) = (reduce st, c).
Proof. reflexivity. Qed.

Lemma reduce_blocks_carry t : forall p off st c,
  valid_state st ->
  reduce_blocks accumulate_carry reduce_carry t p off (st, c)
  = (reduce_blocks accumulate reduce t p off st, c).
Proof.
  induction t as [|t IH]; intros p off st c Hst; [reflexivity|].
  rewrite !reduce_blocks_succ.
  rewrite (accumulate_bytes_carry _ 0)
    by (try apply valid_within; try assumption;
        rewrite ?read_length; unfold BLOCK_SIZE; lia).
  rewrite reduce_carry_pair.
  apply IH, reduce_valid.
Qed.

Lemma reduce_blocks_valid t : forall p off st,
  valid_state st -> valid_state (reduce_blocks accumulate reduce t p off st).
Proof.
  induction t as [|t IH]; intros p off st Hst; [exact Hst|].
  cbn [reduce_blocks]. apply IH, reduce_valid.
Qed.

Lemma long_regime_carry_clear s1 s2 buf len :
  valid_state (s1, s2) -> 0 <= len ->
  long_regime_carry s1 s2 buf len
  = (long_regime accumulate reduce buf len (s1, s2), false).
Proof.
  intros Hst Hlen. unfold long_regime_carry.
  pose proof (Z.mod_pos_bound len BLOCK_SIZE ltac:(unfold BLOCK_SIZE; lia))
    as Hrem.
  rewrite !long_regime_shape by assumption.
  rewrite reduce_blocks_carry by assumption.
  rewrite (accumulate_bytes_carry _ 0)
    by (try apply valid_within; try apply reduce_blocks_valid;
        try assumption; rewrite ?read_length; lia).
  reflexivity.
Qed.

(** Whatever the starting state, dropping the carry of the instrumented
    run gives the run on the plain accumulators: recording the carry does
    not change what is computed. *)
Lemma accumulate_bytes_carry_erase data : forall st,
  fst (accumulate_bytes accumulate_carry data st)
  = accumulate_bytes accumulate data (fst st).
Proof.
  unfold accumulate_bytes.
  induction data as [|x data IH]; intros st; [reflexivity|].
  cbn [fold_left]. now rewrite IH, accumulate_carry_erase.
Qed.

Lemma reduce_carry_fst st : fst (reduce_carry st) = reduce (fst st).
Proof. reflexivity. Qed.

Lemma reduce_blocks_carry_erase t : forall p off st,
  fst (reduce_blocks accumulate_carry reduce_carry t p off st)
  = reduce_blocks accumulate reduce t p off (fst st).
Proof.
  induction t as [|t IH]; intros p off st; [reflexivity|].
  rewrite !reduce_blocks_succ, IH.
  now rewrite reduce_carry_fst, accumulate_bytes_carry_erase.
Qed.

Lemma long_regime_carry_erase st buf len :
  0 <= len ->
  fst (long_regime accumulate_carry reduce_carry buf len st)
  = long_regime accumulate reduce buf len (fst st).
Proof.
  intros Hlen. rewrite !long_regime_shape by assumption.
  rewrite reduce_carry_fst.
  now rewrite accumulate_bytes_carry_erase, reduce_blocks_carry_erase.
Qed.

(** One byte more than [BLOCK_SIZE] is one too many: from the largest
    reduced state, [BLOCK_SIZE] bytes [0xff] leave the carry clear and
    [BLOCK_SIZE + 1] of them set it. *)
Lemma BLOCK_SIZE_is_largest :
  snd (accumulate_bytes accumulate_carry
         (repeat xff (Z.to_nat BLOCK_SIZE)) (65520, 65520, false)) = false
  /\
  snd (accumulate_bytes accumulate_carry
         (repeat xff (Z.to_nat (BLOCK_SIZE + 1))) (65520, 65520, false)) = true.
Proof. split; vm_compute; reflexivity. Qed.

(** ** What the routine reads *)

Lemma read_ext p q off n :
  (forall i, off <= i < off + Z.of_nat n -> p i = q i) ->
  read p off n = read q off n.
Proof.
  intros Heq. unfold read. apply map_ext_in.
  intros k Hk. apply in_seq in Hk. apply Heq. lia.
Qed.

Lemma reduce_blocks_ext {St : Type} (acc : St -> Z -> St) (red : St -> St)
    (p q : ptr) (t : nat) : forall off st,
  (forall i, off <= i < off + Z.of_nat t * BLOCK_SIZE -> p i = q i) ->
  reduce_blocks acc red t p off st = reduce_blocks acc red t q off st.
Proof.
  induction t as [|t IH]; intros off st Heq; [reflexivity|].
  rewrite ?reduce_blocks_succ.
  rewrite (read_ext p q off).
  - apply IH. intros i Hi. apply Heq. unfold BLOCK_SIZE in *. lia.
  - intros i Hi. apply Heq. unfold BLOCK_SIZE in *. lia.
Qed.

Lemma long_regime_ext {St : Type} (acc : St -> Z -> St) (red : St -> St)
    (p q : ptr) (len : Z) (st : St) :
  0 <= len ->
  (forall i, 0 <= i < len -> p i = q i) ->
  long_regime acc red p len st = long_regime acc red q len st.
Proof.
  intros Hlen Heq.
  pose proof (Z.mod_pos_bound len BLOCK_SIZE ltac:(unfold BLOCK_SIZE; lia))
    as Hrem.
  pose proof (Z.div_mod len BLOCK_SIZE ltac:(unfold BLOCK_SIZE; lia)) as Hdiv.
  assert (0 <= len / BLOCK_SIZE) as Hblocks
    by (apply Z.div_pos; unfold BLOCK_SIZE; lia).
  rewrite !long_regime_shape by assumption.
  rewrite (reduce_blocks_ext acc red p q) by (intros i Hi; apply Heq; nia).
  rewrite (read_ext p q) by (intros i Hi; apply Heq; nia).
  reflexivity.
Qed.

Lemma short_regime_ext (p q : ptr) (len : Z) (st : Z * Z) :
  (forall i, 0 <= i < len -> p i = q i) ->
  short_regime p len st = short_regime q len st.
Proof.
  intros Heq. destruct (Z.le_gt_cases 0 len) as [Hlen|Hneg].
  - rewrite !short_regime_fold by assumption. unfold buffer.
    rewrite (read_ext p q) by (intros i Hi; apply Heq; lia).
    reflexivity.
  - unfold short_regime.
    replace (Z.to_nat len) with 0%nat by lia. reflexivity.
Qed.

(** * The claims of the specification *)

(** C1. Regime equivalence: from every reduced starting state
    ([0 <= s1 < 65521], [0 <= s2 < 65521]) and for every buffer, of any
    length (zero included) and any content, [adler32_update] returns
    exactly what the scalar recurrence
    [s1 = (s1 + x) mod 65521; s2 = (s2 + s1) mod 65521] returns on the whole
    buffer, and [(1, 0)] on the empty buffer, whichever of the three
    regimes it runs. *)
Theorem adler32_update_regime_equivalence (s1 s2 : Z) (buf : ptr) (len : Z) :
  0 <= s1 < 65521 -> 0 <= s2 < 65521 -> 0 <= len ->
  adler32_update s1 s2 buf len = reference_update (s1, s2) (buffer buf len).
Proof.
  intros Hs1 Hs2 Hlen.
  destruct (Z.eq_dec len 0) as [->|Hne]; [reflexivity|].
  rewrite reference_update_nonempty by (apply buffer_nonempty; lia).
  apply adler32_update_recurrence; [lia|].
  right. split; assumption.
Qed.

Lemma adler32_update_regime_equivalence_witness :
  adler32_update 65520 65520 (fun _ => xff) 100000
  = reference_update (65520, 65520) (buffer (fun _ => xff) 100000).
Proof. apply adler32_update_regime_equivalence; lia. Defined.

(** C2. Range invariant: from a reduced starting state, for any buffer, the
    state returned by [adler32_update] is reduced again: both components
    lie in [[0, 65521)]. *)
Theorem adler32_update_range (s1 s2 : Z) (buf : ptr) (len : Z) :
  0 <= s1 < 65521 -> 0 <= s2 < 65521 -> 0 <= len ->
  0 <= fst (adler32_update s1 s2 buf len) < 65521 /\
  0 <= snd (adler32_update s1 s2 buf len) < 65521.
Proof.
  intros _ _ Hlen. now apply adler32_update_reduced.
Qed.

Lemma adler32_update_range_witness :
  0 <= fst (adler32_update 65520 65520 (fun _ => xff) 5553) < 65521 /\
  0 <= snd (adler32_update 65520 65520 (fun _ => xff) 5553) < 65521.
Proof. apply adler32_update_range; lia. Defined.

(** C3. Empty-buffer reset: with [len == 0] the routine returns [(1, 0)]
    whatever the incoming state is; the state is not passed through. *)
Theorem adler32_update_empty_resets (s1 s2 : Z) (buf : ptr) :
  adler32_update s1 s2 buf 0 = (1, 0).
Proof. reflexivity. Qed.

(** C4. Chunking invariance: for any split of a buffer into consecutive
    non-empty chunks, threading the state from [(1, 0)] through one call
    per chunk gives the same state as one call on the whole buffer. *)
Theorem chunking_invariance (chunks : list (list byte)) :
  Forall (fun chunk => chunk <> []) chunks ->
  chain (1, 0) chunks = update (1, 0) (concat chunks).
Proof.
  intros Hne.
  rewrite chain_recurrence by (apply identity_valid || assumption).
  symmetry. apply update_identity.
Qed.

Lemma chunking_invariance_witness :
  chain (1, 0) [[x57; x69; x6b]; [x69]; [x70; x65; x64; x69; x61]]
  = update (1, 0)
      (concat [[x57; x69; x6b]; [x69]; [x70; x65; x64; x69; x61]]).
Proof.
  apply chunking_invariance.
  repeat constructor; discriminate.
Defined.

(** C5. The empty-chunk quirk: an empty chunk resets the running state, so
    a chain whose last empty chunk is followed by non-empty chunks returns
    the single-call checksum, from [(1, 0)], of the concatenation of the
    chunks after that empty chunk only; and there is a split with an empty
    chunk in the middle whose chained result differs from the single-call
    result on the whole buffer. *)
Theorem empty_chunk_resets_chain :
  (forall (st : Z * Z) (pre post : list (list byte)),
      Forall (fun chunk => chunk <> []) post ->
      chain st (pre ++ [] :: post) = update (1, 0) (concat post))
  /\
  (exists pre post : list (list byte),
      Forall (fun chunk => chunk <> []) post /\
      chain (1, 0) (pre ++ [] :: post)
      <> update (1, 0) (concat (pre ++ [] :: post))).
Proof.
  split.
  - intros st pre post Hne.
    rewrite chain_app. cbn [chain fold_left].
    change (update (chain st pre) []) with (1, 0).
    fold (chain (1, 0) post).
    rewrite chain_recurrence by (apply identity_valid || assumption).
    symmetry. apply update_identity.
  - exists [[x61]], [[x62]]. split.
    + repeat constructor; discriminate.
    + vm_compute. discriminate.
Qed.

Lemma empty_chunk_resets_chain_witness :
  chain (7, 9) ([[x61]; []; [x62]] ++ [] :: [[x63]; [x64]])
  = update (1, 0) (concat [[x63]; [x64]]).
Proof.
  apply (proj1 empty_chunk_resets_chain).
  repeat constructor; discriminate.
Defined.

(** C6. No overflow under deferred reduction: for a buffer of at least 16
    bytes and a reduced starting state, running the long regime with a
    carry recorded at every 32-bit addition returns the state that
    [adler32_update] returns and a clear carry: inside every full block of
    [BLOCK_SIZE = 5552] bytes and inside the remainder, no addition into
    [a] or [b] wraps modulo [2^32] before the next reduction. *)
Theorem deferred_accumulation_never_wraps (s1 s2 : Z) (buf : ptr) (len : Z) :
  0 <= s1 < 65521 -> 0 <= s2 < 65521 -> 16 <= len ->
  long_regime_carry s1 s2 buf len = (adler32_update s1 s2 buf len, false).
Proof.
  intros Hs1 Hs2 Hlen.
  rewrite long_regime_carry_clear by (lia || split; assumption).
  unfold adler32_update.
  destruct (Z.eqb_spec len 0); [lia|].
  destruct (Z.ltb_spec len 16); [lia|].
  reflexivity.
Qed.

Lemma deferred_accumulation_never_wraps_witness :
  long_regime_carry 65520 65520 (fun _ => xff) 11111
  = (adler32_update 65520 65520 (fun _ => xff) 11111, false).
Proof. apply deferred_accumulation_never_wraps; lia. Defined.

(** C7. Known vectors: from the initial state [(1, 0)], the routine returns
    [(1, 0)] on the empty string, packed [(s2 << 16) | s1 = 0x00000001];
    the packed checksum of the ASCII string "abc" is [0x024d0127] and that
    of "Wikipedia" is [0x11E60398]. *)
Theorem known_vectors :
  update (1, 0) (String.list_byte_of_string String.EmptyString) = (1, 0)
  /\ Z.lor (Z.shiftl 0 16) 1 = 0x00000001
  /\ (let st := update (1, 0) (String.list_byte_of_string "abc"%string) in
      Z.lor (Z.shiftl (snd st) 16) (fst st) = 0x024d0127)
  /\ (let st := update (1, 0) (String.list_byte_of_string "Wikipedia"%string) in
      Z.lor (Z.shiftl (snd st) 16) (fst st) = 0x11E60398).
Proof. repeat split; vm_compute; reflexivity. Qed.

(** C8. Short buffers: for [1 <= len < 16] and every starting state the
    routine runs the scalar loop, which takes the bytes in buffer order and
    performs for each byte [x] the two statements
    [s1 = (s1 + x) mod 65521; s2 = (s2 + s1) mod 65521] on its [uint32_t]
    accumulators, so that the state is reduced after every byte.  Whenever
    the two additions of the first iteration stay below [2^32], as they do
    from every reduced state, the result is that of the same recurrence
    over the integers. *)
Theorem short_buffer_scalar_regime (s1 s2 : Z) (buf : ptr) (len : Z) :
  1 <= len < 16 ->
  adler32_update s1 s2 buf len = short_regime buf len (s1, s2) /\
  adler32_update s1 s2 buf len
  = fold_left short_step (buffer buf len) (s1, s2) /\
  (forall k, 1 <= k <= len ->
     valid_state (fold_left short_step (buffer buf k) (s1, s2))) /\
  (0 <= s1 -> 0 <= s2 ->
   s1 + load_u8 buf 0 < 2 ^ 32 ->
   s2 + (s1 + load_u8 buf 0) mod 65521 < 2 ^ 32 ->
   adler32_update s1 s2 buf len
   = scalar_recurrence (s1, s2) (buffer buf len)).
Proof.
  intros Hlen.
  assert (adler32_update s1 s2 buf len = short_regime buf len (s1, s2))
    as Hshort.
  { unfold adler32_update.
    destruct (Z.eqb_spec len 0); [lia|].
    destruct (Z.ltb_spec len 16); [reflexivity | lia]. }
  split; [exact Hshort|]. split; [|split].
  - rewrite Hshort. apply short_regime_fold. lia.
  - intros k Hk. apply short_fold_nonempty_valid, buffer_nonempty. lia.
  - intros Hs1 Hs2 Ha Hb.
    apply adler32_update_recurrence; [lia|].
    left. split; [lia|]. repeat split; assumption.
Qed.

Lemma short_buffer_scalar_regime_witness :
  adler32_update 4294967295 4294967295 (fun _ => xff) 15
  = short_regime (fun _ => xff) 15 (4294967295, 4294967295) /\
  adler32_update 4294967295 4294967295 (fun _ => xff) 15
  = fold_left short_step (buffer (fun _ => xff) 15)
      (4294967295, 4294967295).
Proof.
  destruct (short_buffer_scalar_regime 4294967295 4294967295
              (fun _ => xff) 15 ltac:(lia)) as (Hregime & Hfold & _).
  exact (conj Hregime Hfold).
Defined.

(** Outside the precondition the [uint32_t] recurrence and the recurrence
    over the integers part: from [s1 = 2^32 - 1] the addition of the byte
    [1] wraps to [0] before it is reduced, where the integers give
    [2^32 mod 65521 = 225]. *)
Lemma short_buffer_wraps_before_reducing :
  (1 <= 1 < 16) /\
  adler32_update 4294967295 0 (ptr_of [x01]) 1 = (0, 0) /\
  scalar_recurrence (4294967295, 0) (buffer (ptr_of [x01]) 1) = (225, 225).
Proof. split; [lia|]. split; vm_compute; reflexivity. Qed.

(** C9. The routine is a function of its explicit inputs: two calls with
    the same starting state and the same length, on memories that agree on
    the [len] bytes of the buffer, return the same state, whatever the
    memories hold elsewhere.  The result is the pair of accumulators only:
    no call writes to the buffer. *)
Theorem adler32_update_reads_only_its_buffer (s1 s2 : Z) (buf buf' : ptr)
    (len : Z) :
  (forall i, 0 <= i < len -> buf i = buf' i) ->
  adler32_update s1 s2 buf len = adler32_update s1 s2 buf' len.
Proof.
  intros Heq. unfold adler32_update.
  destruct (Z.eqb_spec len 0); [reflexivity|].
  destruct (Z.ltb_spec len 16).
  - now apply short_regime_ext.
  - apply long_regime_ext; [lia | assumption].
Qed.

Lemma adler32_update_reads_only_its_buffer_witness :
  adler32_update 1 0 (fun i => if i <? 5600 then x41 else x00) 5600
  = adler32_update 1 0 (fun _ => x41) 5600.
Proof.
  apply adler32_update_reads_only_its_buffer.
  intros i Hi. destruct (Z.ltb_spec i 5600); [reflexivity | lia].
Defined.

(** C10. Outside the precondition: from any pair of 32-bit unsigned
    integers as starting state and for any buffer, the routine, whose
    additions all wrap modulo [2^32], still returns a reduced state. *)
Theorem adler32_update_reduces_any_state (s1 s2 : Z) (buf : ptr) (len : Z) :
  0 <= s1 < 2 ^ 32 -> 0 <= s2 < 2 ^ 32 -> 0 <= len ->
  0 <= fst (adler32_update s1 s2 buf len) < 65521 /\
  0 <= snd (adler32_update s1 s2 buf len) < 65521.
Proof.
  intros _ _ Hlen. now apply adler32_update_reduced.
Qed.

Lemma adler32_update_reduces_any_state_witness :
  0 <= fst (adler32_update 4294967295 4294967295 (fun _ => xff) 5600) < 65521
  /\
  0 <= snd (adler32_update 4294967295 4294967295 (fun _ => xff) 5600) < 65521.
Proof. apply adler32_update_reduces_any_state; lia. Defined.

(** * Further properties of the routine *)

(** ** The checksum in closed form *)

Lemma scalar_recurrence_closed data : forall st,
  scalar_recurrence (reduce st) data
  = reduce (fst st + byte_sum data,
            snd st + Z.of_nat (length data) * fst st + weighted_sum data).
Proof.
  induction data as [|x data IH]; intros st.
  - cbn [scalar_recurrence fold_left byte_sum weighted_sum length].
    destruct st as [a b]. cbn [fst snd]. do 2 f_equal; lia.
  - unfold scalar_recurrence in *. cbn [fold_left].
    rewrite <- reduce_exact_step, IH.
    cbn [fst snd byte_sum weighted_sum length].
    rewrite Nat2Z.inj_succ. f_equal. f_equal; ring.
Qed.

Lemma update_closed st data :
  valid_state st -> data <> [] ->
  update st data
  = ((fst st + byte_sum data) mod 65521,
     (snd st + Z.of_nat (length data) * fst st + weighted_sum data)
       mod 65521).
Proof.
  intros Hst Hne.
  rewrite update_reference, reference_update_nonempty by assumption.
  rewrite <- (reduce_id st) at 1 by assumption.
  apply scalar_recurrence_closed.
Qed.

(** X1. From a reduced state and on a non-empty buffer of [len] bytes the
    routine returns [s1 + sum of the bytes] and
    [s2 + len * s1 + sum of the bytes weighted by their distance to the
    end], both modulo 65521. *)
Theorem adler32_update_closed_form (s1 s2 : Z) (buf : ptr) (len : Z) :
  0 <= s1 < 65521 -> 0 <= s2 < 65521 -> 0 < len ->
  adler32_update s1 s2 buf len
  = ((s1 + byte_sum (buffer buf len)) mod 65521,
     (s2 + len * s1 + weighted_sum (buffer buf len)) mod 65521).
Proof.
  intros Hs1 Hs2 Hlen.
  rewrite adler32_update_recurrence by (lia || (right; split; assumption)).
  rewrite <- (reduce_id (s1, s2)) at 1 by (split; assumption).
  rewrite scalar_recurrence_closed, buffer_length, Z2Nat.id by lia.
  reflexivity.
Qed.

Lemma adler32_update_closed_form_witness :
  adler32_update 65520 65520 (fun _ => xff) 6000
  = ((65520 + byte_sum (buffer (fun _ => xff) 6000)) mod 65521,
     (65520 + 6000 * 65520 + weighted_sum (buffer (fun _ => xff) 6000))
       mod 65521).
Proof. apply adler32_update_closed_form; lia. Defined.

(** ** Composition *)

Lemma update_recurrence st data :
  valid_state st -> data <> [] ->
  update st data = scalar_recurrence st data.
Proof.
  intros Hst Hne.
  now rewrite update_reference, reference_update_nonempty.
Qed.

Lemma concat_nonempty (chunks : list (list byte)) :
  chunks <> [] -> Forall (fun chunk => chunk <> []) chunks ->
  concat chunks <> [].
Proof.
  destruct chunks as [|chunk chunks]; [congruence|].
  intros _ Hne. inversion Hne as [|? ? Hchunk _]; subst.
  destruct chunk; [congruence | discriminate].
Qed.

(** X2. Streaming from any reduced state: feeding one or more non-empty
    chunks one call after the other gives the state that a single call on
    their concatenation gives. *)
Theorem chain_is_update_on_concat (st : Z * Z)
    (chunks : list (list byte)) :
  0 <= fst st < 65521 -> 0 <= snd st < 65521 ->
  chunks <> [] -> Forall (fun chunk => chunk <> []) chunks ->
  chain st chunks = update st (concat chunks).
Proof.
  intros Hs1 Hs2 Hchunks Hne.
  assert (valid_state st) as Hst by (split; assumption).
  rewrite chain_recurrence by assumption.
  symmetry. apply update_recurrence; [assumption|].
  now apply concat_nonempty.
Qed.

Lemma chain_is_update_on_concat_witness :
  chain (300, 65520) [[x61; x62]; [x63]; [x64; x65; x66]]
  = update (300, 65520) (concat [[x61; x62]; [x63]; [x64; x65; x66]]).
Proof.
  apply chain_is_update_on_concat; cbn [fst snd]; try lia;
    [discriminate | repeat constructor; discriminate].
Defined.

(** ** The two regimes are interchangeable *)

(** X3. From a reduced state the block-wise loops of the long regime and
    the scalar loop of the short regime return the same state on every
    buffer, whatever its length: the threshold of 16 bytes selects the
    faster path, not the result. *)
Theorem long_regime_is_short_regime (s1 s2 : Z) (buf : ptr) (len : Z) :
  0 <= s1 < 65521 -> 0 <= s2 < 65521 -> 0 <= len ->
  long_regime accumulate reduce buf len (s1, s2)
  = short_regime buf len (s1, s2).
Proof.
  intros Hs1 Hs2 Hlen.
  assert (valid_state (s1, s2)) as Hst by (split; assumption).
  rewrite long_regime_scalar, short_regime_fold by assumption.
  symmetry. now apply short_fold_scalar_valid.
Qed.

Lemma long_regime_is_short_regime_witness :
  long_regime accumulate reduce (fun _ => xff) 11111 (65520, 65520)
  = short_regime (fun _ => xff) 11111 (65520, 65520).
Proof. apply long_regime_is_short_regime; lia. Defined.

(** ** What the checksum detects *)

Lemma byte_val_inj x y : byte_val x = byte_val y -> x = y.
Proof.
  unfold byte_val. intros Heq. apply N2Z.inj in Heq.
  apply (f_equal Byte.of_N) in Heq.
  rewrite !Byte.of_to_N in Heq. congruence.
Qed.

Lemma byte_sum_app l1 l2 : byte_sum (l1 ++ l2) = byte_sum l1 + byte_sum l2.
Proof.
  induction l1 as [|x l1 IH]; [reflexivity|].
  cbn [app byte_sum]. rewrite IH. ring.
Qed.

Lemma weighted_sum_app l1 l2 :
  weighted_sum (l1 ++ l2)
  = weighted_sum l1 + Z.of_nat (length l2) * byte_sum l1 + weighted_sum l2.
Proof.
  induction l1 as [|x l1 IH]; [cbn; lia|].
  cbn [app byte_sum weighted_sum]. rewrite IH, length_app.
  rewrite !Nat2Z.inj_succ, Nat2Z.inj_add. ring.
Qed.

(** Two integers less than the modulus apart with the same residue are
    equal. *)
Lemma same_residue_close (x y : Z) :
  x mod 65521 = y mod 65521 -> - 65521 < x - y < 65521 -> x = y.
Proof.
  intros Hmod Hclose.
  pose proof (Z.div_mod x 65521 ltac:(lia)) as Hx.
  pose proof (Z.div_mod y 65521 ltac:(lia)) as Hy.
  rewrite Hmod in Hx. lia.
Qed.

(** X4. Single-byte errors are detected: from a reduced state, two buffers
    that differ in exactly one byte get different [s1], hence different
    checksums. *)
Theorem single_byte_change_detected (st : Z * Z) (pre post : list byte)
    (x y : byte) :
  0 <= fst st < 65521 -> 0 <= snd st < 65521 -> x <> y ->
  fst (update st (pre ++ x :: post)) <> fst (update st (pre ++ y :: post)).
Proof.
  intros Hs1 Hs2 Hxy Heq.
  assert (valid_state st) as Hst by (split; assumption).
  rewrite !update_closed in Heq
    by (assumption || (intros Hnil; now apply app_eq_nil in Hnil)).
  cbn [fst] in Heq.
  rewrite !byte_sum_app in Heq. cbn [byte_sum] in Heq.
  apply same_residue_close in Heq.
  - apply Hxy, byte_val_inj. lia.
  - pose proof (byte_val_range x). pose proof (byte_val_range y). lia.
Qed.

Lemma single_byte_change_detected_witness :
  x6b <> x63 /\
  fst (update (1, 0) ([x57; x69] ++ x6b :: [x69]))
  <> fst (update (1, 0) ([x57; x69] ++ x63 :: [x69])).
Proof.
  split; [discriminate|].
  apply single_byte_change_detected; cbn [fst snd]; try lia; discriminate.
Defined.

(** X5. Transpositions are detected: from a reduced state, exchanging two
    adjacent bytes that differ leaves [s1] as it is and changes [s2]. *)
Theorem adjacent_swap_detected (st : Z * Z) (pre post : list byte)
    (x y : byte) :
  0 <= fst st < 65521 -> 0 <= snd st < 65521 -> x <> y ->
  fst (update st (pre ++ x :: y :: post))
  = fst (update st (pre ++ y :: x :: post))
  /\
  snd (update st (pre ++ x :: y :: post))
  <> snd (update st (pre ++ y :: x :: post)).
Proof.
  intros Hs1 Hs2 Hxy.
  assert (valid_state st) as Hst by (split; assumption).
  rewrite !update_closed
    by (assumption || (intros Hnil; now apply app_eq_nil in Hnil)).
  cbn [fst snd].
  rewrite !byte_sum_app, !weighted_sum_app, !length_app.
  cbn [byte_sum weighted_sum length].
  split.
  - f_equal. ring.
  - intros Heq. apply same_residue_close in Heq.
    + apply Hxy, byte_val_inj. lia.
    + pose proof (byte_val_range x). pose proof (byte_val_range y). lia.
Qed.

Lemma adjacent_swap_detected_witness :
  fst (update (1, 0) ([x61] ++ x62 :: x63 :: [x64]))
  = fst (update (1, 0) ([x61] ++ x63 :: x62 :: [x64]))
  /\
  snd (update (1, 0) ([x61] ++ x62 :: x63 :: [x64]))
  <> snd (update (1, 0) ([x61] ++ x63 :: x62 :: [x64])).
Proof.
  apply adjacent_swap_detected; cbn [fst snd]; try lia; discriminate.
Defined.

Lemma byte_sum_permutation l1 l2 :
  Permutation l1 l2 -> byte_sum l1 = byte_sum l2.
Proof.
  induction 1 as [|x l1 l2 _ IH|x y l|l1 l2 l3 _ IH12 _ IH23];
    cbn [byte_sum]; lia.
Qed.

(** X6. [s1] does not see the order of the bytes: from a reduced state, two
    buffers that are permutations of each other get the same [s1]; only
    [s2] can tell them apart. *)
Theorem s1_ignores_byte_order (st : Z * Z) (data data' : list byte) :
  0 <= fst st < 65521 -> 0 <= snd st < 65521 ->
  Permutation data data' ->
  fst (update st data) = fst (update st data').
Proof.
  intros Hs1 Hs2 Hperm.
  assert (valid_state st) as Hst by (split; assumption).
  destruct data as [|x data].
  - apply Permutation_nil in Hperm. now subst.
  - assert (data' <> []) as Hne'.
    { intros ->. apply Permutation_sym, Permutation_nil in Hperm.
      discriminate. }
    rewrite !update_closed by (assumption || discriminate).
    cbn [fst]. now rewrite (byte_sum_permutation _ _ Hperm).
Qed.

Lemma s1_ignores_byte_order_witness :
  fst (update (1, 0) [x61; x62; x63]) = fst (update (1, 0) [x63; x61; x62]).
Proof.
  apply s1_ignores_byte_order; cbn [fst snd]; try lia.
  apply Permutation_sym, (Permutation_cons_append [x61; x62] x63).
Defined.

Lemma byte_sum_zeros n : byte_sum (repeat x00 n) = 0.
Proof.
  induction n as [|n IH]; [reflexivity|].
  cbn [repeat byte_sum]. now rewrite IH.
Qed.

Lemma weighted_sum_zeros n : weighted_sum (repeat x00 n) = 0.
Proof.
  induction n as [|n IH]; [reflexivity|].
  cbn [repeat weighted_sum]. rewrite IH.
  change (byte_val x00) with 0. lia.
Qed.

(** X7. Zero bytes: from a reduced state [(s1, s2)], a buffer of [n >= 1]
    zero bytes leaves [s1] as it is and adds [n * s1] to [s2], modulo
    65521. *)
Theorem zero_bytes_update (st : Z * Z) (n : nat) :
  0 <= fst st < 65521 -> 0 <= snd st < 65521 -> (1 <= n)%nat ->
  update st (repeat x00 n)
  = (fst st, (snd st + Z.of_nat n * fst st) mod 65521).
Proof.
  intros Hs1 Hs2 Hn.
  rewrite update_closed.
  - rewrite byte_sum_zeros, weighted_sum_zeros, repeat_length, !Z.add_0_r.
    now rewrite Z.mod_small by lia.
  - split; assumption.
  - destruct n; [lia | discriminate].
Qed.

Lemma zero_bytes_update_witness :
  update (7, 9) (repeat x00 40)
  = (7, (9 + Z.of_nat 40 * 7) mod 65521).
Proof. apply (zero_bytes_update (7, 9)); cbn [fst snd]; lia. Defined.

(** ** Starting states that are not reduced *)

Lemma within16_no_wrap k st :
  0 <= k <= BLOCK_SIZE -> within16 k st ->
  0 <= fst st < 2 ^ 32 /\ 0 <= snd st < 2 ^ 32.
Proof.
  unfold BLOCK_SIZE, within16. intros Hk [Ha Hb].
  assert (k * (k + 1) <= 5552 * 5553) by nia.
  change (2 ^ 32) with 4294967296. lia.
Qed.

Lemma within16_step k st x :
  0 <= k -> within16 k st ->
  within16 (k + 1) (fst st + byte_val x, snd st + (fst st + byte_val x)).
Proof.
  unfold within16. cbn [fst snd]. intros Hk [Ha Hb].
  pose proof (byte_val_range x). nia.
Qed.

Lemma accumulate_exact16 k st x :
  0 <= k < BLOCK_SIZE -> within16 k st ->
  accumulate st (byte_val x)
  = (fst st + byte_val x, snd st + (fst st + byte_val x)).
Proof.
  intros Hk Hst.
  destruct (within16_no_wrap (k + 1) _ ltac:(lia)
              (within16_step k st x ltac:(lia) Hst)) as [Ha Hb].
  cbn [fst snd] in Ha, Hb.
  unfold accumulate, wrap32.
  rewrite (Z.mod_small (fst st + byte_val x)) by lia.
  now rewrite Z.mod_small by lia.
Qed.

Lemma deferred_reduction16 data : forall k st,
  0 <= k -> k + Z.of_nat (length data) <= BLOCK_SIZE -> within16 k st ->
  reduce (accumulate_bytes accumulate data st)
  = scalar_recurrence (reduce st) data.
Proof.
  induction data as [|x data IH]; intros k st Hk Hlen Hst; [reflexivity|].
  cbn [length] in Hlen.
  unfold accumulate_bytes, scalar_recurrence. cbn [fold_left].
  rewrite (accumulate_exact16 k) by (assumption || lia).
  rewrite <- reduce_exact_step.
  apply (IH (k + 1)); [lia | lia |].
  now apply within16_step.
Qed.

(** Up to [BLOCK_SIZE] bytes accumulated from two 16-bit values and then
    reduced give what they give from the reduced values. *)
Lemma reduce_accumulate_16bit data st :
  0 <= fst st < 2 ^ 16 -> 0 <= snd st < 2 ^ 16 ->
  Z.of_nat (length data) <= BLOCK_SIZE ->
  reduce (accumulate_bytes accumulate data st)
  = reduce (accumulate_bytes accumulate data (reduce st)).
Proof.
  intros Ha Hb Hlen. change (2 ^ 16) with 65536 in *.
  rewrite (deferred_reduction16 data 0 st)
    by (lia || (unfold within16; lia)).
  rewrite deferred_reduction_valid by (apply reduce_valid || assumption).
  reflexivity.
Qed.

Lemma long_regime_16bit st buf len :
  0 <= fst st < 2 ^ 16 -> 0 <= snd st < 2 ^ 16 -> 0 <= len ->
  long_regime accumulate reduce buf len st
  = long_regime accumulate reduce buf len (reduce st).
Proof.
  intros Ha Hb Hlen.
  pose proof (Z.mod_pos_bound len BLOCK_SIZE ltac:(unfold BLOCK_SIZE; lia))
    as Hrem.
  rewrite !long_regime_shape by assumption.
  destruct (Z.to_nat (len / BLOCK_SIZE)) as [|t].
  - cbn [reduce_blocks].
    apply reduce_accumulate_16bit; try assumption.
    rewrite read_length. lia.
  - rewrite !reduce_blocks_succ.
    rewrite (reduce_accumulate_16bit _ st); try assumption; [reflexivity|].
    rewrite read_length. unfold BLOCK_SIZE. lia.
Qed.

Lemma scalar_step_reduce st x : scalar_step (reduce st) x = scalar_step st x.
Proof.
  unfold scalar_step, reduce, ADLER32_PRIME. cbn [fst snd].
  rewrite Z.add_mod_idemp_l by lia. f_equal.
  now rewrite Z.add_mod_idemp_l by lia.
Qed.

Lemma accumulate_carry_within16 k st c x :
  0 <= k < BLOCK_SIZE -> within16 k st ->
  accumulate_carry (st, c) (byte_val x) = (accumulate st (byte_val x), c).
Proof.
  intros Hk Hst.
  destruct (within16_no_wrap (k + 1) _ ltac:(lia)
              (within16_step k st x ltac:(lia) Hst)) as [Ha Hb].
  cbn [fst snd] in Ha, Hb.
  unfold accumulate_carry, add32_carry, accumulate, wrap32. cbn [fst snd].
  rewrite (Z.mod_small (fst st + byte_val x)) by lia.
  destruct (Z.leb_spec (2 ^ 32) (fst st + byte_val x)); [lia|].
  destruct (Z.leb_spec (2 ^ 32) (snd st + (fst st + byte_val x))); [lia|].
  now rewrite !orb_false_r.
Qed.

Lemma accumulate_bytes_carry16 data : forall k st c,
  0 <= k -> k + Z.of_nat (length data) <= BLOCK_SIZE -> within16 k st ->
  accumulate_bytes accumulate_carry data (st, c)
  = (accumulate_bytes accumulate data st, c).
Proof.
  induction data as [|x data IH]; intros k st c Hk Hlen Hst; [reflexivity|].
  cbn [length] in Hlen.
  unfold accumulate_bytes. cbn [fold_left].
  rewrite (accumulate_carry_within16 k) by (assumption || lia).
  apply (IH (k + 1)); [lia | lia |].
  rewrite (accumulate_exact16 k) by (assumption || lia).
  now apply within16_step.
Qed.

Lemma within16_start st :
  0 <= fst st < 2 ^ 16 -> 0 <= snd st < 2 ^ 16 -> within16 0 st.
Proof. change (2 ^ 16) with 65536. unfold within16. lia. Qed.

(** From two 16-bit values the long regime leaves the carry clear. *)
Lemma long_regime_carry_clear16 s1 s2 buf len :
  0 <= s1 < 2 ^ 16 -> 0 <= s2 < 2 ^ 16 -> 0 <= len ->
  long_regime_carry s1 s2 buf len
  = (long_regime accumulate reduce buf len (s1, s2), false).
Proof.
  intros Hs1 Hs2 Hlen. unfold long_regime_carry.
  pose proof (Z.mod_pos_bound len BLOCK_SIZE ltac:(unfold BLOCK_SIZE; lia))
    as Hrem.
  pose proof (within16_start (s1, s2) Hs1 Hs2) as Hst.
  rewrite !long_regime_shape by assumption.
  destruct (Z.to_nat (len / BLOCK_SIZE)) as [|t].
  - cbn [reduce_blocks].
    rewrite (accumulate_bytes_carry16 _ 0)
      by (assumption || rewrite ?read_length; lia).
    apply reduce_carry_pair.
  - rewrite !reduce_blocks_succ.
    rewrite (accumulate_bytes_carry16 _ 0)
      by (assumption || rewrite ?read_length; unfold BLOCK_SIZE; lia).
    rewrite reduce_carry_pair.
    rewrite reduce_blocks_carry by apply reduce_valid.
    rewrite (accumulate_bytes_carry _ 0)
      by (try apply valid_within; try apply reduce_blocks_valid;
          try apply reduce_valid; rewrite ?read_length; lia).
    apply reduce_carry_pair.
Qed.

Lemma steps_short_carry buf t : forall n st,
  steps 1
    (fun n st =>
       let r1 := add32_carry (fst (fst st)) (load_u8 buf n) in
       let a := fst r1 mod ADLER32_PRIME in
       let r2 := add32_carry (snd (fst st)) a in
       let b := fst r2 mod ADLER32_PRIME in
       (a, b, snd st || snd r1 || snd r2))
    t n st
  = fold_left short_step_carry (read buf n t) st.
Proof.
  induction t as [|t IH]; intros n st; [reflexivity|].
  cbn [steps]. rewrite IH, read_succ. reflexivity.
Qed.

Lemma short_regime_carry_fold buf len st :
  0 <= len ->
  short_regime_carry buf len st
  = fold_left short_step_carry (buffer buf len) st.
Proof.
  intros Hlen. unfold short_regime_carry, buffer.
  rewrite (for_loop_steps _ 1 1 len _ ltac:(lia)
             (fun i => ltb_as_leb i len) (Z.to_nat len))
    by lia.
  cbn [snd]. apply steps_short_carry.
Qed.

(** Dropping the carry of the short loop gives the short loop. *)
Lemma short_step_carry_erase st x :
  fst (short_step_carry st x) = short_step (fst st) x.
Proof. reflexivity. Qed.

Lemma short_step_carry_exact st c x :
  first_step_exact st x ->
  short_step_carry (st, c) x = (short_step st x, c).
Proof.
  unfold first_step_exact, short_step_carry, short_step, add32_carry,
    wrap32, ADLER32_PRIME.
  change (2 ^ 32) with 4294967296. cbn [fst snd].
  intros (Ha & Hb & Hax & Hbx).
  rewrite (Z.mod_small (fst st + byte_val x) 4294967296)
    by (pose proof (byte_val_range x); lia).
  destruct (Z.leb_spec 4294967296 (fst st + byte_val x)); [lia|].
  destruct (Z.leb_spec 4294967296
              (snd st + (fst st + byte_val x) mod 65521)); [lia|].
  now rewrite !orb_false_r.
Qed.

Lemma short_fold_carry_valid data : forall st c,
  valid_state st ->
  fold_left short_step_carry data (st, c)
  = (fold_left short_step data st, c).
Proof.
  induction data as [|x data IH]; intros st c Hst; [reflexivity|].
  cbn [fold_left].
  rewrite short_step_carry_exact by now apply valid_first_step_exact.
  apply IH, short_step_valid.
Qed.

Lemma short_regime_carry_clear s1 s2 buf len :
  0 < len -> first_step_exact (s1, s2) (buf 0) ->
  short_regime_carry buf len (s1, s2, false)
  = (short_regime buf len (s1, s2), false).
Proof.
  intros Hlen Hst.
  rewrite short_regime_carry_fold, short_regime_fold by lia.
  rewrite buffer_head by assumption. cbn [fold_left].
  rewrite short_step_carry_exact by assumption.
  apply short_fold_carry_valid, short_step_valid.
Qed.

Lemma first_step_exact_16bit s1 s2 x :
  0 <= s1 < 2 ^ 16 -> 0 <= s2 < 2 ^ 16 -> first_step_exact (s1, s2) x.
Proof.
  intros Hs1 Hs2. unfold first_step_exact. cbn [fst snd].
  change (2 ^ 16) with 65536 in *. change (2 ^ 32) with 4294967296.
  pose proof (byte_val_range x).
  pose proof (Z.mod_pos_bound (s1 + byte_val x) 65521 ltac:(lia)).
  lia.
Qed.

(** X8. Unreduced 16-bit halves are tolerated: when the incoming [s1] and
    [s2] are any 16-bit values, as the two halves of a packed 32-bit
    checksum are, the routine returns what it returns from the state
    reduced modulo 65521 first, on every buffer; and no 32-bit addition
    wraps: the routine run with the carry of every addition recorded
    returns the same state with the carry clear. *)
Theorem adler32_update_16bit_state (s1 s2 : Z) (buf : ptr) (len : Z) :
  0 <= s1 < 2 ^ 16 -> 0 <= s2 < 2 ^ 16 -> 0 <= len ->
  adler32_update s1 s2 buf len
  = adler32_update (s1 mod 65521) (s2 mod 65521) buf len
  /\
  adler32_update_carry s1 s2 buf len = (adler32_update s1 s2 buf len, false).
Proof.
  intros Hs1 Hs2 Hlen. unfold adler32_update, adler32_update_carry.
  destruct (Z.eqb_spec len 0); [split; reflexivity|].
  destruct (Z.ltb_spec len 16).
  - split.
    + rewrite !short_regime_fold by assumption.
      rewrite buffer_head by lia.
      rewrite short_fold_scalar by now apply first_step_exact_16bit.
      rewrite short_fold_scalar_valid by apply (reduce_valid (s1, s2)).
      unfold scalar_recurrence. cbn [fold_left].
      now rewrite <- (scalar_step_reduce (s1, s2)).
    + apply short_regime_carry_clear; [lia|].
      now apply first_step_exact_16bit.
  - split.
    + now apply (long_regime_16bit (s1, s2)).
    + now apply long_regime_carry_clear16.
Qed.

Lemma adler32_update_16bit_state_witness :
  adler32_update 65535 65535 (fun _ => xff) 11111
  = adler32_update (65535 mod 65521) (65535 mod 65521) (fun _ => xff) 11111
  /\
  adler32_update_carry 65535 65535 (fun _ => xff) 11111
  = (adler32_update 65535 65535 (fun _ => xff) 11111, false).
Proof. apply adler32_update_16bit_state; lia. Defined.

Lemma short_fold_carry_erase data : forall st,
  fst (fold_left short_step_carry data st)
  = fold_left short_step data (fst st).
Proof.
  induction data as [|x data IH]; intros st; [reflexivity|].
  cbn [fold_left]. now rewrite IH, short_step_carry_erase.
Qed.

(** The routine with its carry dropped is the routine, from any state. *)
Lemma adler32_update_carry_erase s1 s2 buf len :
  0 <= len ->
  fst (adler32_update_carry s1 s2 buf len) = adler32_update s1 s2 buf len.
Proof.
  intros Hlen. unfold adler32_update_carry, adler32_update.
  destruct (Z.eqb_spec len 0); [reflexivity|].
  destruct (Z.ltb_spec len 16).
  - rewrite short_regime_carry_fold, short_regime_fold by assumption.
    apply short_fold_carry_erase.
  - apply (long_regime_carry_erase (s1, s2, false)). assumption.
Qed.

(** ** [BLOCK_SIZE] cannot be larger *)

Lemma accumulate_bytes_carry_sticky data : forall st,
  snd st = true -> snd (accumulate_bytes accumulate_carry data st) = true.
Proof.
  unfold accumulate_bytes.
  induction data as [|x data IH]; intros st Hc; [exact Hc|].
  cbn [fold_left]. now apply IH, accumulate_carry_sticky.
Qed.

(** X9. More than [BLOCK_SIZE] bytes cannot be accumulated without
    reduction: for every [n > 5552] the [n] bytes [0xff] accumulated by
    [a += x; b += a;] from the reduced state [(65520, 65520)] make a 32-bit
    addition wrap. *)
Theorem accumulation_beyond_BLOCK_SIZE_wraps (n : nat) :
  (Z.to_nat BLOCK_SIZE < n)%nat ->
  snd (accumulate_bytes accumulate_carry (repeat xff n)
         (65520, 65520, false)) = true.
Proof.
  intros Hn.
  replace n
    with (Z.to_nat (BLOCK_SIZE + 1) + (n - Z.to_nat (BLOCK_SIZE + 1)))%nat
    by (unfold BLOCK_SIZE in *; lia).
  rewrite repeat_app, accumulate_bytes_app.
  apply accumulate_bytes_carry_sticky.
  exact (proj2 BLOCK_SIZE_is_largest).
Qed.

Lemma accumulation_beyond_BLOCK_SIZE_wraps_witness :
  snd (accumulate_bytes accumulate_carry (repeat xff (Z.to_nat 6000))
         (65520, 65520, false)) = true.
Proof.
  apply accumulation_beyond_BLOCK_SIZE_wraps. unfold BLOCK_SIZE. lia.
Defined.

(** ** Splitting at a block boundary *)

Lemma adler32_update_long s1 s2 buf len :
  16 <= len ->
  adler32_update s1 s2 buf len
  = long_regime accumulate reduce buf len (s1, s2).
Proof.
  intros Hlen. unfold adler32_update.
  destruct (Z.eqb_spec len 0); [lia|].
  destruct (Z.ltb_spec len 16); [lia | reflexivity].
Qed.

(** A call on exactly one block accumulates the block and reduces. *)
Lemma adler32_update_one_block s1 s2 buf :
  adler32_update s1 s2 buf BLOCK_SIZE
  = reduce (accumulate_bytes accumulate
              (read buf 0 (Z.to_nat BLOCK_SIZE)) (s1, s2)).
Proof.
  rewrite adler32_update_long by (unfold BLOCK_SIZE; lia).
  rewrite long_regime_shape by (unfold BLOCK_SIZE; lia).
  rewrite Z.div_same, Z.mod_same by (unfold BLOCK_SIZE; lia).
  change (Z.to_nat 1) with 1%nat. change (Z.to_nat 0) with 0%nat.
  rewrite reduce_blocks_succ.
  cbn [reduce_blocks read map seq accumulate_bytes fold_left].
  apply reduce_id, reduce_valid.
Qed.

(** X10. Splitting after the first block is exact from any starting state,
    reduced or not: on a buffer longer than [BLOCK_SIZE] the routine
    returns what it returns on the rest of the buffer from the state it
    returns on the first [BLOCK_SIZE] bytes. *)
Theorem adler32_update_split_first_block (s1 s2 : Z) (buf : ptr) (len : Z) :
  BLOCK_SIZE < len ->
  adler32_update s1 s2 buf len
  = adler32_update (fst (adler32_update s1 s2 buf BLOCK_SIZE))
      (snd (adler32_update s1 s2 buf BLOCK_SIZE))
      (ptr_add buf BLOCK_SIZE) (len - BLOCK_SIZE).
Proof.
  intros Hlen.
  assert (0 < BLOCK_SIZE) as HBS by (unfold BLOCK_SIZE; lia).
  pose proof (Z.mod_pos_bound len BLOCK_SIZE HBS) as Hrem.
  pose proof (Z.div_mod len BLOCK_SIZE ltac:(lia)) as Hdiv.
  assert (1 <= len / BLOCK_SIZE) as Hblocks
    by (apply Z.div_le_lower_bound; lia).
  rewrite adler32_update_one_block.
  set (st1 := reduce _).
  assert (valid_state st1) as Hst1 by apply reduce_valid.
  rewrite (adler32_update_recurrence (fst st1) (snd st1))
    by (lia || (right; exact Hst1)).
  rewrite adler32_update_long by (unfold BLOCK_SIZE in *; lia).
  rewrite long_regime_shape by lia.
  replace (Z.to_nat (len / BLOCK_SIZE))
    with (S (Z.to_nat (len / BLOCK_SIZE - 1))) by lia.
  rewrite reduce_blocks_succ. fold st1.
  rewrite reduce_blocks_scalar by assumption.
  rewrite deferred_reduction_valid
    by (try apply scalar_recurrence_valid; try assumption;
        rewrite read_length; lia).
  rewrite <- scalar_recurrence_app, <- surjective_pairing. f_equal.
  unfold buffer. rewrite read_ptr_add.
  replace (Z.to_nat (len - BLOCK_SIZE))
    with (Z.to_nat (len / BLOCK_SIZE - 1) * Z.to_nat BLOCK_SIZE
          + Z.to_nat (len mod BLOCK_SIZE))%nat by nia.
  rewrite read_app. do 2 f_equal; nia.
Qed.

Lemma adler32_update_split_first_block_witness :
  adler32_update 4294967295 4294967295 (fun _ => xff) 11111
  = adler32_update
      (fst (adler32_update 4294967295 4294967295 (fun _ => xff) BLOCK_SIZE))
      (snd (adler32_update 4294967295 4294967295 (fun _ => xff) BLOCK_SIZE))
      (ptr_add (fun _ => xff) BLOCK_SIZE) (11111 - BLOCK_SIZE).
Proof.
  apply adler32_update_split_first_block. unfold BLOCK_SIZE. lia.
Defined.
